(** * The tensor core of [include/singa/core/tensor.h]

    A shallow embedding of the inline functions of the header
    ([SizeOf], the [Tensor] accessors, [Product], [CheckDataTypeAndLang])
    together with the storage model they run against, and the properties
    of the tensor specification that are stated about them. *)

From Stdlib Require Import ZArith Lia Bool.
From stdpp Require Import base option list gmap.

Local Open Scope Z_scope.

(** ** Outcomes of a call

    The header is written in the glog style: a [CHECK_*] macro whose condition
    is false aborts the process.  Raw pointer dereferences and
    [operator[]] have no check of their own, so a null pointer or an index
    outside the container is undefined behaviour; [vector::at] throws. *)

Inductive outcome (A : Type) : Type :=
  | Ret (a : A)      (* the call returns [a] *)
  | Fatal            (* a CHECK failed: the process is aborted *)
  | Throws           (* std::out_of_range out of [vector::at] *)
  | Undefined.       (* null dereference or unchecked out-of-bounds read *)

Arguments Ret {A} a.
Arguments Fatal {A}.
Arguments Throws {A}.
Arguments Undefined {A}.

#[global] Instance outcome_ret : MRet outcome := fun A a => Ret a.
#[global] Instance outcome_bind : MBind outcome := fun A B f m =>
  match m with
  | Ret a => f a
  | Fatal => Fatal
  | Throws => Throws
  | Undefined => Undefined
  end.

(** [CHECK(c)]: continue when [c] holds, abort otherwise. *)
Definition CHECK (c : bool) : outcome unit := if c then Ret () else Fatal.

Definition CHECK_EQ (a b : Z) : outcome unit := CHECK (a =? b).
Definition CHECK_LT (a b : Z) : outcome unit := CHECK (a <? b).
Definition CHECK_LE (a b : Z) : outcome unit := CHECK (a <=? b).
Definition CHECK_GT (a b : Z) : outcome unit := CHECK (a >? b).

(** ** Machine integers

    [size_t] is 64 bits wide and [int] / [unsigned int] are 32 bits wide
    (LP64).  Values are kept in [Z]; the conversions below write out the
    wrap-around of the unsigned types. *)

Definition SIZE_MOD : Z := 2 ^ 64.
Definition UINT_MOD : Z := 2 ^ 32.

Definition to_size_t (z : Z) : Z := z mod SIZE_MOD.
Definition to_unsigned_int (z : Z) : Z := z mod UINT_MOD.

Definition is_int (z : Z) : Prop := - 2 ^ 31 <= z < 2 ^ 31.

(** ** DataType and its width table *)

(** Modelled from the spec: the enumeration [DataType] is generated from
    [singa/proto/core.proto], which is not part of the header.  The spec
    lists its enumerators in table order (32-bit float, 16-bit float, 32-bit
    int, byte, 64-bit float); the header's [static_assert] fixes
    [kNumDataType] to the number of entries of [kDataWidth].  A value of the
    enumeration type is its underlying integer, so that values outside the
    enumerators can be written. *)
Definition DataType : Type := Z.
Definition kFloat32 : DataType := 0.
Definition kFloat16 : DataType := 1.
Definition kInt : DataType := 2.
Definition kChar : DataType := 3.
Definition kDouble : DataType := 4.
Definition kNumDataType : DataType := 5.

Definition sizeof_float : Z := 4.
Definition sizeof_int : Z := 4.
Definition sizeof_char : Z := 1.
Definition sizeof_double : Z := 8.

Definition kDataWidth : list Z :=
  [sizeof_float; sizeof_float / 2; sizeof_int; sizeof_char; sizeof_double].

(** [a[i]] on a built-in array: no bounds check. *)
Definition array_get (a : list Z) (i : Z) : outcome Z :=
  if i <? 0 then Undefined
  else match a !! Z.to_nat i with
       | Some x => Ret x
       | None => Undefined
       end.

(** [inline size_t SizeOf(DataType t)] *)
Definition SizeOf (t : DataType) : outcome Z :=
  _ ← CHECK_GT kNumDataType t;
  array_get kDataWidth t.

(** ** Shapes and [Product] *)

Definition Shape : Type := list Z.

(** [shape.size()] of a [std::vector<size_t>]. *)
Definition Shape_size (s : Shape) : Z := Z.of_nat (length s).

(** The loop [for (unsigned int i = start; i < len; i++) v *= shape[i];].
    [i] is an [unsigned int] compared against the [size_t] [len]; [v] is a
    [size_t].  The result is [None] when [fuel] iterations did not reach the
    exit of the loop. *)
Fixpoint Product_loop (fuel : nat) (shape : Shape) (i len v : Z)
  {struct fuel} : option (outcome Z) :=
  if i <? len then
    match fuel with
    | O => None
    | S fuel' =>
        match array_get shape i with
        | Ret d =>
            Product_loop fuel' shape (to_unsigned_int (i + 1)) len
              (to_size_t (v * d))
        | _ => Some Undefined
        end
    end
  else Some (Ret v).

(** The positions of [shape] that the first [fuel] iterations of the loop
    read, in order: the values [i] takes while [i < len] holds. *)
Fixpoint Product_reads (fuel : nat) (i len : Z) {struct fuel} : list Z :=
  if i <? len then
    match fuel with
    | O => []
    | S fuel' => i :: Product_reads fuel' (to_unsigned_int (i + 1)) len
    end
  else [].

(** [inline size_t Product(const Shape &shape, int start = 0, size_t len = 0)] *)
Definition Product (fuel : nat) (shape : Shape) (start len : Z)
  : option (outcome Z) :=
  let len := if len =? 0 then Shape_size shape else len in
  match CHECK_LE len (Shape_size shape) with
  | Ret _ => Product_loop fuel shape (to_unsigned_int start) len 1
  | _ => Some Fatal
  end.

(** The call [Product(shape)] with both defaults. *)
Definition Product_default (fuel : nat) (shape : Shape) : option (outcome Z) :=
  Product fuel shape 0 0.

(** Product of a list of dimensions, as a mathematical integer. *)
Definition list_prod (l : list Z) : Z := foldr Z.mul 1 l.

(** The machine product: one wrapped multiplication per element. *)
Definition wrapped_prod (v : Z) (l : list Z) : Z :=
  foldl (λ acc d, to_size_t (acc * d)) v l.

(** The elements of [s] at positions [from], ..., [to - 1]. *)
Definition positions (s : Shape) (from to : Z) : list Z :=
  take (Z.to_nat (to - from)) (drop (Z.to_nat from) s).

(** The reading of the specification: a sub-range of [len] elements that
    begins at [start], all remaining elements when [len] is 0. *)
Definition Product_spec (s : Shape) (start len : Z) : Z :=
  if len =? 0 then list_prod (drop (Z.to_nat start) s)
  else list_prod (take (Z.to_nat len) (drop (Z.to_nat start) s)).

(** [v.at(i)] on a [std::vector]: bounds-checked, throws outside. *)
Definition vector_at (v : list Z) (i : Z) : outcome Z :=
  if i <? 0 then Throws
  else match v !! Z.to_nat i with
       | Some x => Ret x
       | None => Throws
       end.

(** ** Devices, storage blocks and the store

    A pointer is an address or [nullptr].  The objects behind [Device *] and
    [Blob *] live in a store that every tensor handle refers into, so that two
    handles holding the same address see the same block. *)

Definition pointer : Type := option N.
Definition nullptr : pointer := None.

(** Modelled from the spec: [Device] is declared in [singa/core/device.h],
    which is not part of the header.  The tensor core reads only its backend
    tag, [lang()]. *)
Record Device : Type := mkDevice { lang : Z }.

(** Address of the process-default host device. *)
Definition defaultDevice : N := 0%N.

Section TensorCore.

(** The scalar type a buffer is viewed at (the template parameter [SType]),
    with the division of the backend kernels. *)
Context {SType : Type}.
Variable sdiv : SType → SType → SType.

(** Modelled from the spec: [Blob] is declared in [singa/core/common.h],
    which is not part of the header.  A storage block is a buffer with its
    size in bytes, shared between the tensors that reference it. *)
Record Blob : Type := mkBlob {
  blob_data : list SType;
  blob_size : Z;
  ref_count : Z
}.

Record Store : Type := mkStore {
  blobs : gmap N Blob;
  devices : gmap N Device
}.

(** [p->...]: dereferencing [nullptr] or an address with no live object is
    undefined. *)
Definition deref {V : Type} (m : gmap N V) (p : pointer) : outcome V :=
  match p with
  | None => Undefined
  | Some a =>
      match m !! a with
      | Some v => Ret v
      | None => Undefined
      end
  end.

(** ** class Tensor *)

(** The protected members, with the default member initialisers of the
    class as [Tensor_init]. *)
Record Tensor : Type := mkTensor {
  transpose_ : bool;
  data_type_ : DataType;
  device_ : pointer;
  blob_ : pointer;
  shape_ : Shape
}.

Definition Tensor_init : Tensor :=
  {| transpose_ := false; data_type_ := kFloat32; device_ := nullptr;
     blob_ := nullptr; shape_ := [] |}.

(** [Blob *blob() const { return blob_; }] *)
Definition blob (t : Tensor) : pointer := blob_ t.

(** [Device *device() const { return device_; }] *)
Definition device (t : Tensor) : pointer := device_ t.

(** [SType data() const { return static_cast<SType>(blob()->data()); }]:
    the buffer behind the returned pointer. *)
Definition data (st : Store) (t : Tensor) : outcome (list SType) :=
  b ← deref (blobs st) (blob t);
  Ret (blob_data b).

(** [const DataType data_type() const { return data_type_; }] *)
Definition data_type (t : Tensor) : DataType := data_type_ t.

(** [const Shape &shape() const { return shape_; }] *)
Definition shape (t : Tensor) : Shape := shape_ t.

(** [size_t nDim() const { return shape_.size(); }] *)
Definition nDim (t : Tensor) : Z := Shape_size (shape_ t).

(** [const size_t shape(const size_t idx) const] *)
Definition shape_at (t : Tensor) (idx : Z) : outcome Z :=
  _ ← CHECK_LT idx (Shape_size (shape_ t));
  vector_at (shape_ t) idx.

(** [bool transpose() const { return transpose_; }] *)
Definition transpose (t : Tensor) : bool := transpose_ t.

(** [size_t Size() const] *)
Definition Size (st : Store) (t : Tensor) : outcome Z :=
  b ← deref (blobs st) (blob_ t);
  w ← SizeOf (data_type_ t);
  _ ← CHECK_EQ (blob_size b mod w) 0;
  Ret (blob_size b / w).

(** [size_t MemSize() const { return blob_->size(); }] *)
Definition MemSize (st : Store) (t : Tensor) : outcome Z :=
  b ← deref (blobs st) (blob_ t);
  Ret (blob_size b).

(** [inline void CheckDataTypeAndLang(const Tensor &in1, const Tensor &in2)] *)
Definition CheckDataTypeAndLang (st : Store) (in1 in2 : Tensor) : outcome unit :=
  _ ← CHECK_EQ (data_type in1) (data_type in2);
  d1 ← deref (devices st) (device in1);
  d2 ← deref (devices st) (device in2);
  CHECK_EQ (lang d1) (lang d2).

(** ** Members and functions defined outside the header

    The bodies of the constructors, of [T()], of the copy operations and of
    the [Div] family are in [tensor.cc], which is not part of the header;
    the header only declares them, with their contract as a comment. *)

(** The store with its blocks replaced. *)
Definition with_blobs (st : Store) (m : gmap N Blob) : Store :=
  {| blobs := m; devices := devices st |}.

(** Modelled from the spec: the reference count of a block ([Blob] is not
    part of the header) goes up and down with the tensors that hold it. *)

Definition IncRefCount (b : Blob) : Blob :=
  {| blob_data := blob_data b; blob_size := blob_size b;
     ref_count := ref_count b + 1 |}.

Definition DecRefCount (b : Blob) : Blob :=
  {| blob_data := blob_data b; blob_size := blob_size b;
     ref_count := ref_count b - 1 |}.

Definition set_data (d : list SType) (b : Blob) : Blob :=
  {| blob_data := d; blob_size := blob_size b; ref_count := ref_count b |}.

(** Modelled from the spec: a further tensor takes a reference to a block
    ("multiple Tensors may hold a reference to the same block"). *)
Definition retain (st : Store) (p : pointer) : Store :=
  match p with
  | None => st
  | Some a => with_blobs st (alter IncRefCount a (blobs st))
  end.

(** Modelled from the spec: a reference to a block is dropped; "the block
    is freed only when its last referencing Tensor is destroyed or the block
    is explicitly replaced". *)
Definition release (st : Store) (p : pointer) : Store :=
  match p with
  | None => st
  | Some a =>
      match blobs st !! a with
      | None => st
      | Some b =>
          if ref_count b <=? 1 then with_blobs st (delete a (blobs st))
          else with_blobs st (<[a := DecRefCount b]> (blobs st))
      end
  end.

(** Modelled from the spec: [Tensor(const Shape &shape, Device *dev,
    const DataType dtype)].  The storage handle is "lazily bound; null until
    first access that requires real memory", storage is allocated "never at
    construction": the constructor sets the shape, the device and the data
    type, and the other members keep their default member initialisers. *)
Definition Tensor_on (s : Shape) (dev : pointer) (dtype : DataType) : Tensor :=
  {| transpose_ := transpose_ Tensor_init; data_type_ := dtype; device_ := dev;
     blob_ := blob_ Tensor_init; shape_ := s |}.

(** Modelled from the spec: [Tensor(const Shape &shape, const DataType
    dtype)]; "construction without a device binds to a process-default host
    device". *)
Definition Tensor_of (s : Shape) (dtype : DataType) : Tensor :=
  Tensor_on s (Some defaultDevice) dtype.

(** Modelled from the spec: [Tensor(const Tensor &from)], "copy Tensor to
    share the internal data, no deep copy". *)
Definition Tensor_copy (st : Store) (from : Tensor) : Store * Tensor :=
  (retain st (blob from),
   {| transpose_ := transpose_ from; data_type_ := data_type_ from;
      device_ := device_ from; blob_ := blob from; shape_ := shape_ from |}).

(** Modelled from the spec: [Tensor &operator=(const Tensor &in)], "copy
    the meta info with data blob shared".  A block "is freed only when its
    last referencing Tensor is destroyed or the block is explicitly
    replaced": the reference held before is dropped when the assignment
    replaces it by a reference to another block, and an assignment between
    two handles on the same block replaces nothing. *)
Definition Tensor_assign (st : Store) (self from : Tensor) : Store * Tensor :=
  ((if decide (blob_ self = blob from) then st
    else retain (release st (blob_ self)) (blob from)),
   {| transpose_ := transpose_ from; data_type_ := data_type_ from;
      device_ := device_ from; blob_ := blob from; shape_ := shape_ from |}).

(** Modelled from the spec: [Tensor T() const], "for 2-D tensors only,
    returns a new Tensor sharing the same storage with transpose flipped and
    dimensions swapped in the reported shape; fails fast (fatal check) if
    rank is not 2". *)
Definition T (st : Store) (t : Tensor) : outcome (Store * Tensor) :=
  _ ← CHECK_EQ (nDim t) 2;
  r ← shape_at t 0;
  c ← shape_at t 1;
  Ret (retain st (blob_ t),
       {| transpose_ := negb (transpose_ t); data_type_ := data_type_ t;
          device_ := device_ t; blob_ := blob_ t; shape_ := [c; r] |}).

(** Modelled from the spec: a write through a tensor's storage ("any Tensor
    holding a reference may write through it; no implicit copy-on-write").
    [f] is the change made to the buffer. *)
Definition mutate (st : Store) (t : Tensor) (f : list SType → list SType)
  : outcome Store :=
  match blob_ t with
  | None => Undefined
  | Some a =>
      match blobs st !! a with
      | None => Undefined
      | Some b => Ret (with_blobs st (<[a := set_data (f (blob_data b)) b]> (blobs st)))
      end
  end.

(** Modelled from the spec: the device hands out a block at an address that
    is not in use. *)
Definition NewBlob (st : Store) (bytes : Z) : Store * N :=
  let a := fresh (dom (blobs st)) in
  (with_blobs st (<[a := mkBlob [] bytes 1]> (blobs st)), a).

(** Modelled from the spec: "a value-returning form allocates/shapes a fresh
    output Tensor matching the input's shape/type/device". *)
Definition output_like (st : Store) (input : Tensor) : outcome (Store * Tensor) :=
  bytes ← MemSize st input;
  let '(st1, a) := NewBlob st bytes in
  Ret (st1,
       {| transpose_ := false; data_type_ := data_type_ input;
          device_ := device_ input; blob_ := Some a; shape_ := shape_ input |}).

(** Modelled from the spec: [void Div(const Tensor &in, const SType x,
    Tensor *out)], "for each element e of Tensor 'in', compute e / x into
    out". *)
Definition Div_tensor_scalar_out (st : Store) (input : Tensor) (x : SType)
  (out : Tensor) : outcome Store :=
  _ ← CheckDataTypeAndLang st input out;
  d ← data st input;
  mutate st out (λ _, (λ e, sdiv e x) <$> d).

(** Modelled from the spec: [void Div(const SType x, const Tensor &in,
    Tensor *out)], "for each element e of Tensor 'in', compute x/e into
    'out'". *)
Definition Div_scalar_tensor_out (st : Store) (x : SType) (input : Tensor)
  (out : Tensor) : outcome Store :=
  _ ← CheckDataTypeAndLang st input out;
  d ← data st input;
  mutate st out (λ _, (λ e, sdiv x e) <$> d).

(** Modelled from the spec: [Tensor Div(const Tensor &in, const SType x)]
    is not declared; its value-returning form is [operator/]. *)
Definition operator_div (st : Store) (input : Tensor) (x : SType)
  : outcome (Store * Tensor) :=
  '(st1, out) ← output_like st input;
  st2 ← Div_tensor_scalar_out st1 input x out;
  Ret (st2, out).

(** Modelled from the spec: [Tensor Div(const SType x, const Tensor &in)]. *)
Definition Div_scalar_tensor (st : Store) (x : SType) (input : Tensor)
  : outcome (Store * Tensor) :=
  '(st1, out) ← output_like st input;
  st2 ← Div_scalar_tensor_out st1 x input out;
  Ret (st2, out).

End TensorCore.

(** ** [TypeCast]

    The template [TypeCast<FromType, ToType>] is [static_cast<ToType>], at
    the integer types the header computes with: [int] (the [start] of
    [Product]), [unsigned int] (its loop counter) and [size_t]. *)

Inductive IntType : Type := t_int | t_unsigned_int | t_size_t.

Definition bits (ty : IntType) : Z :=
  match ty with
  | t_int | t_unsigned_int => 32
  | t_size_t => 64
  end.

Definition is_signed (ty : IntType) : bool :=
  match ty with
  | t_int => true
  | t_unsigned_int | t_size_t => false
  end.

(** The values of a type. *)
Definition in_range (ty : IntType) (x : Z) : Prop :=
  if is_signed ty then - 2 ^ (bits ty - 1) <= x < 2 ^ (bits ty - 1)
  else 0 <= x < 2 ^ bits ty.

(** [static_cast<ty>(x)] on integers: the value of [ty] congruent to [x]
    modulo 2^bits. *)
Definition static_cast (ty : IntType) (x : Z) : Z :=
  let m := x mod 2 ^ bits ty in
  if is_signed ty && (2 ^ (bits ty - 1) <=? m) then m - 2 ^ bits ty else m.

(** [template <typename FromType, typename ToType>
     ToType TypeCast(const FromType &x)] *)
Definition TypeCast (from to : IntType) (x : Z) : Z := static_cast to x.

(** Case analysis of a cast between two given integer types. *)
Ltac cast_cases :=
  unfold in_range, TypeCast, static_cast, bits, is_signed in *;
  change (2 ^ 32) with 4294967296 in *;
  change (2 ^ 64) with 18446744073709551616 in *;
  change (2 ^ (32 - 1)) with 2147483648 in *;
  simpl andb in *; cbv iota in *;
  repeat match goal with
         | |- context [?a <=? ?b] => destruct (Z.leb_spec a b)
         end;
  Z.div_mod_to_equations; lia.

(** ** A small store

    One host device, one block of six 32-bit ints referenced by one 2 x 3
    tensor; integer tensors divide with the truncating division of C++. *)

Definition host : Device := mkDevice 0.

Definition block0 : @Blob Z := mkBlob [6; 3; 2; 1; 4; 12] 24 1.

Definition store0 : @Store Z :=
  {| blobs := {[ 7%N := block0 ]}; devices := {[ defaultDevice := host ]} |}.

Definition matrix0 : Tensor :=
  {| transpose_ := false; data_type_ := kInt; device_ := Some defaultDevice;
     blob_ := Some 7%N; shape_ := [2; 3] |}.

(** * Properties *)

(** ** Glog checks and the width table *)

Lemma CHECK_true (c : bool) : c = true → CHECK c = Ret ().
Proof. by intros ->. Qed.

Lemma CHECK_false (c : bool) : c = false → CHECK c = Fatal.
Proof. by intros ->. Qed.

(** The header's [static_assert]. *)
Lemma kNumDataType_table : kNumDataType = Z.of_nat (length kDataWidth).
Proof. reflexivity. Qed.

Lemma array_get_in_bounds (a : list Z) (i : Z) :
  0 <= i < Z.of_nat (length a) →
  ∃ d, a !! Z.to_nat i = Some d ∧ array_get a i = Ret d.
Proof.
  intros [Hlo Hhi]. unfold array_get.
  destruct (Z.ltb_spec i 0) as [?|_]; [lia|].
  destruct (lookup_lt_is_Some_2 a (Z.to_nat i)) as [d Hd]; [lia|].
  exists d. by rewrite Hd.
Qed.

(** ** [Product] *)

Lemma Product_loop_exit (fuel : nat) (s : Shape) (i len v : Z) :
  len <= i → Product_loop fuel s i len v = Some (Ret v).
Proof.
  intros Hle. destruct fuel; simpl;
    destruct (Z.ltb_spec i len); (lia || done).
Qed.

Lemma Product_loop_step (fuel : nat) (s : Shape) (i len v d : Z) :
  i < len → array_get s i = Ret d →
  Product_loop (S fuel) s i len v =
  Product_loop fuel s (to_unsigned_int (i + 1)) len (to_size_t (v * d)).
Proof.
  intros Hlt Hd. simpl. rewrite Hd.
  destruct (Z.ltb_spec i len); (lia || done).
Qed.

Lemma to_unsigned_int_range (z : Z) : 0 <= to_unsigned_int z < UINT_MOD.
Proof. unfold to_unsigned_int, UINT_MOD. apply Z.mod_pos_bound. lia. Qed.

Lemma to_unsigned_int_small (z : Z) : 0 <= z < UINT_MOD → to_unsigned_int z = z.
Proof. intros H. unfold to_unsigned_int. by apply Z.mod_small. Qed.

Lemma to_size_t_range (z : Z) : 0 <= to_size_t z < SIZE_MOD.
Proof. unfold to_size_t, SIZE_MOD. apply Z.mod_pos_bound. lia. Qed.

Lemma positions_empty (s : Shape) (from to : Z) : to <= from → positions s from to = [].
Proof.
  intros H. unfold positions. replace (Z.to_nat (to - from)) with O by lia.
  done.
Qed.

Lemma positions_cons (s : Shape) (from to d : Z) :
  0 <= from < to → s !! Z.to_nat from = Some d →
  positions s from to = d :: positions s (from + 1) to.
Proof.
  intros H Hd. unfold positions.
  replace (Z.to_nat (to - from)) with (S (Z.to_nat (to - (from + 1)))) by lia.
  replace (Z.to_nat (from + 1)) with (S (Z.to_nat from)) by lia.
  by rewrite (drop_S _ _ _ Hd).
Qed.

Lemma wrapped_prod_mod (l : list Z) (v : Z) :
  0 <= v < SIZE_MOD → wrapped_prod v l = (v * list_prod l) mod SIZE_MOD.
Proof.
  revert v. induction l as [|d l IH]; intros v Hv; simpl.
  - rewrite Z.mul_1_r. symmetry. by apply Z.mod_small.
  - unfold wrapped_prod in IH. rewrite IH by apply to_size_t_range.
    unfold to_size_t. rewrite Z.mul_mod_idemp_l by (unfold SIZE_MOD; lia).
    f_equal. lia.
Qed.

(** The loop, run with enough fuel on a shape whose size fits an
    [unsigned int], leaves through its exit with the wrapped product of the
    positions [i], ..., [len - 1]. *)
Lemma Product_loop_run (n : nat) :
  ∀ (fuel : nat) (s : Shape) (i len v : Z),
    0 <= i → i + Z.of_nat n = len → len <= Shape_size s →
    Shape_size s < UINT_MOD → (n ≤ fuel)%nat →
    Product_loop fuel s i len v = Some (Ret (wrapped_prod v (positions s i len))).
Proof.
  induction n as [|n IH]; intros fuel s i len v Hi Hn Hlen Hsz Hfuel.
  - rewrite Product_loop_exit by lia. by rewrite positions_empty by lia.
  - destruct fuel as [|fuel]; [lia|].
    destruct (array_get_in_bounds s i) as (d & Hd & Hget);
      [unfold Shape_size in Hlen; lia|].
    rewrite (Product_loop_step _ _ _ _ _ d) by (lia || done).
    rewrite to_unsigned_int_small by lia.
    rewrite (IH fuel s (i + 1) len) by lia.
    by rewrite (positions_cons s i len d) by (lia || done).
Qed.

(** Whatever the fuel, the loop never leaves the shape: it is still running
    or it has returned. *)
Lemma Product_loop_in_bounds (fuel : nat) :
  ∀ (s : Shape) (i len v : Z),
    0 <= i → len <= Shape_size s →
    Product_loop fuel s i len v = None ∨
    ∃ r, Product_loop fuel s i len v = Some (Ret r).
Proof.
  induction fuel as [|fuel IH]; intros s i len v Hi Hlen.
  - simpl. destruct (i <? len); [by left | right; by eexists].
  - destruct (Z.lt_ge_cases i len) as [Hlt|Hge].
    + destruct (array_get_in_bounds s i) as (d & _ & Hget);
        [unfold Shape_size in Hlen; lia|].
      rewrite (Product_loop_step _ _ _ _ _ d) by done.
      apply IH; [apply to_unsigned_int_range | done].
    + right. exists v. by apply Product_loop_exit.
Qed.

Lemma Product_reads_in_range (fuel : nat) :
  ∀ (i len j : Z), 0 <= i → j ∈ Product_reads fuel i len → 0 <= j < len.
Proof.
  induction fuel as [|fuel IH]; intros i len j Hi; simpl;
    destruct (Z.ltb_spec i len) as [Hlt|Hge]; try (intros H; by inversion H).
  intros [->|Hin]%elem_of_cons; [lia|].
  apply (IH (to_unsigned_int (i + 1))); [apply to_unsigned_int_range | done].
Qed.

(** The end of the range [Product] iterates over: [len], or the size of the
    shape when [len] is 0. *)
Lemma Product_unfold (fuel : nat) (s : Shape) (start len : Z) :
  Product fuel s start len =
  if (if len =? 0 then Shape_size s else len) <=? Shape_size s
  then Product_loop fuel s (to_unsigned_int start)
         (if len =? 0 then Shape_size s else len) 1
  else Some Fatal.
Proof.
  unfold Product, CHECK_LE, CHECK. simpl.
  by destruct ((if len =? 0 then Shape_size s else len) <=? Shape_size s).
Qed.

(** C1, as the code has it.  On a shape of fewer than 2^32 dimensions and
    for every [start] and [len], [Product (s, start, len)] returns the
    product, modulo 2^64, of the elements of [s] at the positions [start]
    (as an [unsigned int]) up to but excluding [len]: [len] is the end
    position of the range, not its number of elements, and [len = 0] stands
    for the size of [s].  A call with [len] above the size of [s] fails the
    fatal check. *)
Theorem Product_range (fuel : nat) (s : Shape) (start len : Z) :
  Shape_size s < UINT_MOD →
  (length s ≤ fuel)%nat →
  let e := if len =? 0 then Shape_size s else len in
  (e <= Shape_size s →
   Product fuel s start len =
   Some (Ret (list_prod (positions s (to_unsigned_int start) e) mod SIZE_MOD)))
  ∧ (Shape_size s < len → Product fuel s start len = Some Fatal).
Proof.
  intros Hsz Hfuel e. rewrite Product_unfold. fold e. split.
  - intros He. destruct (Z.leb_spec e (Shape_size s)) as [_|?]; [|lia].
    pose proof (to_unsigned_int_range start) as Hs.
    set (i := to_unsigned_int start) in *.
    destruct (Z.le_gt_cases e i) as [Hge|Hlt].
    + rewrite Product_loop_exit by done. by rewrite positions_empty by done.
    + rewrite (Product_loop_run (Z.to_nat (e - i)));
        [|lia|lia|done|done|unfold Shape_size in He; lia].
      rewrite wrapped_prod_mod by (unfold SIZE_MOD; lia).
      by rewrite Z.mul_1_l.
  - intros Hlen. unfold Shape_size in *.
    assert (e = len) as -> by (subst e; destruct (Z.eqb_spec len 0); lia).
    destruct (Z.leb_spec len (Z.of_nat (length s))); [lia | done].
Qed.

Lemma Product_range_witness :
  Product 3 [2; 3; 5] 1 2 = Some (Ret 3)
  ∧ Product 3 [2; 3; 5] 1 0 = Some (Ret 15)
  ∧ Product 3 [2; 3; 5] 0 4 = Some Fatal.
Proof.
  destruct (Product_range 3 [2; 3; 5] 1 2) as [H1 _];
    [reflexivity | simpl; lia |].
  destruct (Product_range 3 [2; 3; 5] 1 0) as [H2 _];
    [reflexivity | simpl; lia |].
  destruct (Product_range 3 [2; 3; 5] 0 4) as [_ H3];
    [reflexivity | simpl; lia |].
  split; [apply H1; vm_compute; discriminate |].
  split; [apply H2; vm_compute; discriminate | apply H3; reflexivity].
Defined.

(** C1, as the specification words it, fails: on the shape (2, 3, 5) the
    sub-range of 2 elements that begins at position 1 has product 15, and
    [Product] returns 3, the product of the positions 1 up to but excluding
    2. *)
Lemma Product_range_counterexample :
  2 <= Shape_size [2; 3; 5]
  ∧ Product_spec [2; 3; 5] 1 2 = 15
  ∧ Product 3 [2; 3; 5] 1 2 = Some (Ret 3)
  ∧ Product 3 [2; 3; 5] 1 2 ≠ Some (Ret (Product_spec [2; 3; 5] 1 2)).
Proof. repeat split; try reflexivity; vm_compute; discriminate. Qed.

(** C10.  When [len] passes the check, [Product] never reads outside the
    shape: every position the loop reads is inside it and, whatever the
    fuel, the call is still iterating or it has returned a value, so that no
    run ends in an out-of-bounds read.  When the range is empty
    ([start], as the [unsigned int] the loop counts with, is at or past its
    end, also beyond the size of the shape) it returns 1 without an
    iteration; so does the empty shape with the default arguments. *)
Theorem Product_reads_in_bounds (fuel : nat) (s : Shape) (start len : Z) :
  is_int start →
  let e := if len =? 0 then Shape_size s else len in
  e <= Shape_size s →
  (∀ j, j ∈ Product_reads fuel (to_unsigned_int start) e → 0 <= j < Shape_size s)
  ∧ (Product fuel s start len = None ∨ ∃ v, Product fuel s start len = Some (Ret v))
  ∧ Product fuel s start len ≠ Some Undefined
  ∧ (e <= to_unsigned_int start → Product fuel s start len = Some (Ret 1))
  ∧ (0 <= start → e <= start → Product fuel s start len = Some (Ret 1))
  ∧ Product_default fuel [] = Some (Ret 1).
Proof.
  intros Hstart e He.
  assert (Product fuel s start len = Product_loop fuel s (to_unsigned_int start) e 1)
    as Heq.
  { rewrite Product_unfold. fold e.
    destruct (Z.leb_spec e (Shape_size s)); [done | lia]. }
  assert (Product fuel s start len = None
          ∨ ∃ v, Product fuel s start len = Some (Ret v)) as Hrun.
  { rewrite Heq. apply Product_loop_in_bounds; [apply to_unsigned_int_range | done]. }
  split.
  { intros j Hj.
    apply Product_reads_in_range in Hj; [lia | apply to_unsigned_int_range]. }
  split; [done|]. split.
  { destruct Hrun as [-> | [v ->]]; discriminate. }
  split; [|split].
  - intros Hpast. rewrite Heq. by apply Product_loop_exit.
  - intros H0 Hpast. rewrite Heq. apply Product_loop_exit.
    rewrite to_unsigned_int_small; [done|].
    unfold is_int in Hstart. unfold UINT_MOD. lia.
  - unfold Product_default. rewrite Product_unfold. simpl.
    by apply Product_loop_exit.
Qed.

Lemma Product_reads_in_bounds_witness :
  Product 0 [2; 3; 5] 7 0 = Some (Ret 1)
  ∧ Product 0 [2; 3; 5] (-1) 2 = Some (Ret 1).
Proof.
  split.
  - destruct (Product_reads_in_bounds 0 [2; 3; 5] 7 0) as (_ & _ & _ & _ & H & _);
      [unfold is_int; lia | simpl; unfold Shape_size; simpl; lia |].
    apply H; [lia | vm_compute; discriminate].
  - destruct (Product_reads_in_bounds 0 [2; 3; 5] (-1) 2) as (_ & _ & _ & H & _);
      [unfold is_int; lia | simpl; unfold Shape_size; simpl; lia |].
    apply H. vm_compute. discriminate.
Defined.

(** ** [SizeOf] *)

Lemma SizeOf_enumerator (t : DataType) :
  0 <= t < kNumDataType →
  ∃ w, kDataWidth !! Z.to_nat t = Some w ∧ SizeOf t = Ret w.
Proof.
  intros Ht. unfold SizeOf, CHECK_GT.
  rewrite CHECK_true by (apply Z.gtb_lt; lia). simpl.
  apply array_get_in_bounds. by rewrite <- kNumDataType_table.
Qed.

Lemma SizeOf_out_of_range (t : DataType) : kNumDataType <= t → SizeOf t = Fatal.
Proof.
  intros Ht. unfold SizeOf, CHECK_GT.
  rewrite CHECK_false; [done|].
  rewrite Z.gtb_ltb. apply Z.ltb_ge. lia.
Qed.

(** C4.  Each enumerator of [DataType] has the width the table records
    for it (4 for the 32-bit float, 2 for the 16-bit float, 4 for the 32-bit
    int, 1 for the byte, 8 for the double), every value below [kNumDataType]
    is answered from inside the table, and every value at or above
    [kNumDataType] fails the check instead of reading past the table. *)
Theorem SizeOf_widths :
  SizeOf kFloat32 = Ret 4
  ∧ SizeOf kFloat16 = Ret 2
  ∧ SizeOf kInt = Ret 4
  ∧ SizeOf kChar = Ret 1
  ∧ SizeOf kDouble = Ret 8
  ∧ (∀ t : DataType, 0 <= t < kNumDataType →
       ∃ w, kDataWidth !! Z.to_nat t = Some w ∧ SizeOf t = Ret w)
  ∧ (∀ t : DataType, kNumDataType <= t → SizeOf t = Fatal).
Proof.
  repeat (split; [reflexivity|]).
  split; [apply SizeOf_enumerator | apply SizeOf_out_of_range].
Qed.

Lemma SizeOf_positive (t : DataType) (w : Z) : SizeOf t = Ret w → 0 < w.
Proof.
  unfold SizeOf, CHECK_GT, CHECK. destruct (Z.gtb_spec kNumDataType t) as [Hlt|]; [|done].
  simpl. unfold array_get. destruct (Z.ltb_spec t 0) as [|Hge]; [done|].
  unfold kNumDataType in Hlt.
  assert (t = 0 ∨ t = 1 ∨ t = 2 ∨ t = 3 ∨ t = 4) as Hcases by lia.
  destruct Hcases as [->|[->|[->|[->| ->]]]]; simpl; intros [= <-]; done.
Qed.

(** ** The accessors of [Tensor] *)

(** C6.  [t.shape (idx)] fails the fatal check when [idx] is not below
    [t.nDim ()], and otherwise returns the entry of the shape at [idx]. *)
Theorem shape_at_checked (t : Tensor) (idx : Z) :
  0 <= idx →
  (nDim t <= idx → shape_at t idx = Fatal)
  ∧ (idx < nDim t →
     ∃ d, shape t !! Z.to_nat idx = Some d ∧ shape_at t idx = Ret d).
Proof.
  intros Hidx. unfold shape_at, CHECK_LT, nDim, shape. split.
  - intros Hge. rewrite CHECK_false; [done|]. apply Z.ltb_ge. lia.
  - intros Hlt. rewrite CHECK_true by (apply Z.ltb_lt; lia). simpl.
    unfold vector_at. destruct (Z.ltb_spec idx 0); [lia|].
    destruct (lookup_lt_is_Some_2 (shape_ t) (Z.to_nat idx)) as [d Hd];
      [unfold Shape_size in Hlt; lia|].
    exists d. by rewrite Hd.
Qed.

Lemma shape_at_checked_witness :
  shape_at (Tensor_of [2; 3] kFloat32) 1 = Ret 3
  ∧ shape_at (Tensor_of [2; 3] kFloat32) 2 = Fatal.
Proof.
  split.
  - destruct (shape_at_checked (Tensor_of [2; 3] kFloat32) 1) as [_ H]; [lia|].
    destruct H as (d & Hd & ->); [reflexivity|].
    simpl in Hd. by injection Hd as <-.
  - destruct (shape_at_checked (Tensor_of [2; 3] kFloat32) 2) as [H _]; [lia|].
    apply H. vm_compute. discriminate.
Defined.

Section Accessors.
Context {SType : Type}.
Implicit Types (st : @Store SType) (b : @Blob SType).


(** C3.  On a tensor whose storage is bound (and whose data type is an
    enumerator), [MemSize ()] is the byte size of the block, [Size ()] fails
    its fatal check unless that byte size is a multiple of the width of the
    data type, and otherwise returns [MemSize ()] divided by the width; a
    returned [Size ()] times the width is the byte size again. *)
Theorem Size_MemSize st (t : Tensor) b :
  deref (blobs st) (blob_ t) = Ret b →
  0 <= data_type t < kNumDataType →
  ∃ w, SizeOf (data_type t) = Ret w
    ∧ 0 < w
    ∧ MemSize st t = Ret (blob_size b)
    ∧ (blob_size b mod w ≠ 0 → Size st t = Fatal)
    ∧ (blob_size b mod w = 0 → Size st t = Ret (blob_size b / w))
    ∧ (∀ n, Size st t = Ret n → blob_size b mod w = 0 ∧ blob_size b = n * w).
Proof.
  intros Hb Hdt.
  destruct (SizeOf_enumerator _ Hdt) as (w & _ & Hw). exists w.
  pose proof (SizeOf_positive _ _ Hw) as Hpos.
  unfold Size, MemSize, data_type in *. rewrite Hb, Hw. simpl.
  unfold CHECK_EQ, CHECK.
  split; [done|]. split; [done|]. split; [done|].
  destruct (Z.eqb_spec (blob_size b mod w) 0) as [Heq|Hne]; simpl.
  - split; [done|]. split; [done|].
    intros n [= <-]. split; [done|].
    rewrite (Z.div_mod (blob_size b) w) at 1 by lia. lia.
  - split; [done|]. split; [done | by intros n].
Qed.

(** C5.  With both devices live, [CheckDataTypeAndLang] returns exactly
    when the two tensors have the same data type and their devices the same
    backend tag; in every other case it fails a fatal check, and it has no
    third outcome. *)
Theorem CheckDataTypeAndLang_iff st (in1 in2 : Tensor) (d1 d2 : Device) :
  deref (devices st) (device in1) = Ret d1 →
  deref (devices st) (device in2) = Ret d2 →
  (CheckDataTypeAndLang st in1 in2 = Ret ()
   ↔ data_type in1 = data_type in2 ∧ lang d1 = lang d2)
  ∧ (¬ (data_type in1 = data_type in2 ∧ lang d1 = lang d2)
     → CheckDataTypeAndLang st in1 in2 = Fatal).
Proof.
  intros H1 H2. unfold CheckDataTypeAndLang, CHECK_EQ, CHECK.
  destruct (Z.eqb_spec (data_type in1) (data_type in2)) as [Hdt|Hdt]; simpl.
  - rewrite H1, H2. simpl.
    destruct (Z.eqb_spec (lang d1) (lang d2)) as [Hl|Hl].
    + split; [done | tauto].
    + split; [split; [done | tauto] | done].
  - split; [split; [done | tauto] | done].
Qed.

End Accessors.

(** ** Shared storage *)

Section SharedStorage.
Context {SType : Type}.
Variable sdiv : SType → SType → SType.
Implicit Types (st : @Store SType) (blk : @Blob SType) (p : N) (q : pointer).


Lemma retain_contents st q p :
  blob_data <$> blobs (retain st q) !! p = blob_data <$> blobs st !! p.
Proof.
  destruct q as [a|]; simpl; [|done].
  rewrite lookup_alter. case_decide; [subst a|done].
  by destruct (blobs st !! p).
Qed.

Lemma retain_devices st q : devices (retain st q) = devices st.
Proof. by destruct q. Qed.

Lemma data_retain st q (t : Tensor) : data (retain st q) t = data st t.
Proof.
  unfold data, deref. destruct (blob t) as [p|]; [|done].
  pose proof (retain_contents st q p) as H.
  destruct (blobs (retain st q) !! p), (blobs st !! p); simpl in *;
    congruence.
Qed.

Lemma data_same_blob st (t u : Tensor) : blob t = blob u → data st t = data st u.
Proof. unfold data. by intros ->. Qed.


Lemma retain_no_new st q p :
  blobs st !! p = None → blobs (retain st q) !! p = None.
Proof.
  intros Hp. pose proof (retain_contents st q p) as H. rewrite Hp in H.
  by destruct (blobs (retain st q) !! p).
Qed.

Lemma release_no_new st q p :
  blobs st !! p = None → blobs (release st q) !! p = None.
Proof.
  intros Hp. destruct q as [a|]; simpl; [|done].
  destruct (blobs st !! a) as [b|] eqn:Ha; [|done].
  assert (a ≠ p) as Hne by congruence.
  destruct (ref_count b <=? 1); simpl.
  - by rewrite lookup_delete_ne.
  - by rewrite lookup_insert_ne.
Qed.

(** A write through one handle is read back through every handle on the
    same block. *)
Lemma mutate_observed st (t : Tensor) p blk (f : list SType → list SType) :
  blob t = Some p → blobs st !! p = Some blk →
  ∃ st', mutate st t f = Ret st'
       ∧ devices st' = devices st
       ∧ ∀ u : Tensor, blob u = Some p → data st' u = Ret (f (blob_data blk)).
Proof.
  intros Ht Hp. unfold mutate. unfold blob in Ht. rewrite Ht, Hp.
  eexists. split; [done|]. split; [done|].
  intros u Hu. unfold data, deref. rewrite Hu. simpl.
  by rewrite lookup_insert_eq.
Qed.

(** C7.  On a tensor of shape (r, c), [T ()] returns a tensor on the same
    block with the same device and data type, the transpose flag flipped and
    the shape (c, r); no block is created and no buffer changes; a second
    [T ()] gives back the tensor itself, so it reads the same elements.  On a
    tensor whose rank is not 2, [T ()] fails the fatal check. *)
Theorem T_involutive st (t : Tensor) :
  (∀ r c, shape t = [r; c] →
     ∃ st1 t1, T st t = Ret (st1, t1)
       ∧ blob t1 = blob t ∧ device t1 = device t
       ∧ data_type t1 = data_type t
       ∧ transpose t1 = negb (transpose t)
       ∧ shape t1 = [c; r]
       ∧ (∀ p, blob_data <$> blobs st1 !! p = blob_data <$> blobs st !! p)
       ∧ data st1 t1 = data st t
       ∧ ∃ st2 t2, T st1 t1 = Ret (st2, t2) ∧ t2 = t ∧ data st2 t2 = data st t)
  ∧ (nDim t ≠ 2 → T st t = Fatal).
Proof.
  split.
  - intros r c Hs. destruct t as [tr dt dev bl sh]. simpl in Hs. subst sh.
    eexists _, _. split; [reflexivity|]. simpl.
    repeat (split; [done|]).
    split; [intros p; apply retain_contents|].
    split; [rewrite data_retain; by apply data_same_blob|].
    eexists _, _. split; [reflexivity|].
    split; [simpl; by rewrite negb_involutive|].
    rewrite !data_retain. by apply data_same_blob.
  - intros Hrank. unfold T, CHECK_EQ.
    rewrite CHECK_false; [done|]. by apply Z.eqb_neq.
Qed.

Lemma release_other st q p :
  q ≠ Some p → blobs (release st q) !! p = blobs st !! p.
Proof.
  intros Hne. destruct q as [a|]; simpl; [|done].
  destruct (blobs st !! a) as [b|]; [|done].
  assert (a ≠ p) by congruence.
  destruct (ref_count b <=? 1); simpl.
  - by rewrite lookup_delete_ne.
  - by rewrite lookup_insert_ne.
Qed.

Lemma data_release st q (t : Tensor) :
  q ≠ blob t → data (release st q) t = data st t.
Proof.
  intros Hne. unfold data, deref. destruct (blob t) as [p|]; [|done].
  by rewrite release_other.
Qed.

(** A write that went through one handle is read through every handle on
    the same block, and it changed the buffer that was there before. *)
Lemma mutate_shared st (t u : Tensor) (f : list SType → list SType) st' :
  blob u = blob t → mutate st u f = Ret st' →
  ∃ d, data st t = Ret d ∧ data st' t = Ret (f d) ∧ data st' u = Ret (f d).
Proof.
  unfold blob. intros Hblob Hm. unfold mutate in Hm.
  destruct (blob_ u) as [p|] eqn:Hu; [|done].
  destruct (blobs st !! p) as [blk|] eqn:Hp; [|done].
  injection Hm as <-. exists (blob_data blk).
  unfold data, deref, blob. rewrite <- Hblob, Hu, Hp. simpl.
  by rewrite lookup_insert_eq.
Qed.

Lemma mutate_returns st (t : Tensor) (d : list SType)
    (f : list SType → list SType) :
  data st t = Ret d → ∃ st', mutate st t f = Ret st'.
Proof.
  unfold data, deref, mutate, blob.
  destruct (blob_ t) as [p|]; [|done].
  destruct (blobs st !! p); [by eexists | done].
Qed.

(** C9.  For every tensor [a], the copy [b] made by the copy constructor
    or by assignment over any tensor [b0] holds [a]'s storage handle and
    device; the copy creates no block and leaves what [a] reads as it is;
    every write that goes through [b]'s storage is what [a] reads
    afterwards; and such a write goes through whenever [a] has storage. *)
Theorem copy_shares_storage st (a : Tensor) :
  (∃ st1 b, Tensor_copy st a = (st1, b)
     ∧ blob b = blob a ∧ device b = device a
     ∧ (∀ p', blob_data <$> blobs st1 !! p' = blob_data <$> blobs st !! p')
     ∧ data st1 a = data st a
     ∧ data st1 b = data st a
     ∧ (∀ f st2, mutate st1 b f = Ret st2 →
          ∃ d, data st a = Ret d
             ∧ data st2 a = Ret (f d) ∧ data st2 b = Ret (f d))
     ∧ (∀ d f, data st a = Ret d → ∃ st2, mutate st1 b f = Ret st2))
  ∧ (∀ b0 : Tensor,
       ∃ st1 b, Tensor_assign st b0 a = (st1, b)
         ∧ blob b = blob a ∧ device b = device a
         ∧ (∀ p', blobs st !! p' = None → blobs st1 !! p' = None)
         ∧ data st1 a = data st a
         ∧ data st1 b = data st a
         ∧ (∀ f st2, mutate st1 b f = Ret st2 →
              ∃ d, data st a = Ret d
                 ∧ data st2 a = Ret (f d) ∧ data st2 b = Ret (f d))
         ∧ (∀ d f, data st a = Ret d → ∃ st2, mutate st1 b f = Ret st2)).
Proof.
  assert (∀ st1 (b : Tensor),
            blob b = blob a → data st1 a = data st a →
            data st1 b = data st a
            ∧ (∀ f st2, mutate st1 b f = Ret st2 →
                 ∃ d, data st a = Ret d
                    ∧ data st2 a = Ret (f d) ∧ data st2 b = Ret (f d))
            ∧ (∀ d f, data st a = Ret d → ∃ st2, mutate st1 b f = Ret st2))
    as Hshare.
  { intros st1 b Hb Hsame.
    assert (data st1 b = data st a) as Hdb.
    { rewrite <- Hsame. by apply data_same_blob. }
    split; [done|]. split.
    - intros f st2 Hm. rewrite <- Hsame. by apply (mutate_shared st1 a b).
    - intros d f Hd. apply (mutate_returns st1 b d). by rewrite Hdb. }
  split.
  - eexists _, _. split; [reflexivity|].
    split; [done|]. split; [done|].
    split; [intros p'; apply retain_contents|].
    assert (data (retain st (blob a)) a = data st a) as Hsame
      by apply data_retain.
    split; [done|]. by apply Hshare.
  - intros b0. eexists _, _. split; [reflexivity|].
    split; [done|]. split; [done|].
    destruct (decide (blob_ b0 = blob a)) as [Heq|Hne].
    + split; [done|]. split; [done|]. by apply Hshare.
    + split; [intros p' Hp'; by apply retain_no_new, release_no_new|].
      assert (data (retain (release st (blob_ b0)) (blob a)) a = data st a)
        as Hsame by (rewrite data_retain; by apply data_release).
      split; [done|]. by apply Hshare.
Qed.

(** The out-parameter forms: check, read the input, write the output. *)
Lemma eltwise_out st (input out : Tensor) (d : list SType) p blk
    (g : SType → SType) :
  data st input = Ret d →
  CheckDataTypeAndLang st input out = Ret () →
  blob out = Some p → blobs st !! p = Some blk →
  ∃ st1,
    (_ ← CheckDataTypeAndLang st input out;
     d' ← data st input;
     mutate st out (λ _, g <$> d')) = Ret st1
    ∧ data st1 out = Ret (g <$> d).
Proof.
  intros Hd Hck Hout Hp. rewrite Hck, Hd. simpl.
  destruct (mutate_observed st out p blk (λ _, g <$> d) Hout Hp)
    as (st1 & Hm & _ & Hread).
  exists st1. split; [done|]. by apply Hread.
Qed.

(** The output of a value-returning form: a fresh block, the input left as
    it is, and the compatibility check of the out-parameter form passed. *)
Lemma output_like_run st (input : Tensor) (d : list SType) (dev : Device) :
  data st input = Ret d →
  deref (devices st) (device input) = Ret dev →
  ∃ st1 out p blk,
    output_like st input = Ret (st1, out)
    ∧ data st1 input = Ret d
    ∧ CheckDataTypeAndLang st1 input out = Ret ()
    ∧ blob out = Some p ∧ blobs st1 !! p = Some blk
    ∧ blobs st !! p = None.
Proof.
  intros Hd Hdev. unfold output_like, MemSize.
  unfold data, deref, blob in Hd.
  destruct (blob_ input) as [pin|] eqn:Hin; [|done].
  destruct (blobs st !! pin) as [bin|] eqn:Hbin; [|done].
  simpl in Hd. injection Hd as <-.
  unfold deref. rewrite Hbin. simpl.
  set (a := fresh (dom (blobs st))).
  assert (blobs st !! a = None) as Hfresh.
  { apply not_elem_of_dom. apply is_fresh. }
  assert (a ≠ pin) as Hne by congruence.
  eexists _, _, a, _. split; [reflexivity|].
  split.
  { unfold data, deref, blob. rewrite Hin. simpl.
    rewrite lookup_insert_ne by done. by rewrite Hbin. }
  split.
  { unfold CheckDataTypeAndLang, CHECK_EQ, data_type, device in *. simpl.
    rewrite Z.eqb_refl. simpl. rewrite Hdev. simpl. by rewrite Z.eqb_refl. }
  split; [done|]. split; [|done].
  simpl. by rewrite lookup_insert_eq.
Qed.

(** C8.  On an input with elements [d] (and a live device), [Div (x, in)]
    returns a tensor whose elements are [x / e] for the elements [e] of the
    input, [operator/ (in, x)] one whose elements are [e / x]; the
    out-parameter forms [Div (x, in, out)] and [Div (in, x, out)] leave the
    same two results in [out]; and the two results differ as soon as [x / e]
    and [e / x] differ for one element of the input. *)
Theorem Div_scalar_forms st (input : Tensor) (x : SType) (d : list SType)
    (dev : Device) :
  data st input = Ret d →
  deref (devices st) (device input) = Ret dev →
  (∃ st1 out, Div_scalar_tensor sdiv st x input = Ret (st1, out)
     ∧ data st1 out = Ret ((λ e, sdiv x e) <$> d))
  ∧ (∃ st1 out, operator_div sdiv st input x = Ret (st1, out)
       ∧ data st1 out = Ret ((λ e, sdiv e x) <$> d))
  ∧ (∀ (out : Tensor) p blk,
       blob out = Some p → blobs st !! p = Some blk →
       CheckDataTypeAndLang st input out = Ret () →
       (∃ st1, Div_scalar_tensor_out sdiv st x input out = Ret st1
          ∧ data st1 out = Ret ((λ e, sdiv x e) <$> d))
       ∧ (∃ st1, Div_tensor_scalar_out sdiv st input x out = Ret st1
            ∧ data st1 out = Ret ((λ e, sdiv e x) <$> d)))
  ∧ (∀ e, e ∈ d → sdiv x e ≠ sdiv e x →
       (λ e, sdiv x e) <$> d ≠ (λ e, sdiv e x) <$> d).
Proof.
  intros Hd Hdev.
  destruct (output_like_run st input d dev Hd Hdev)
    as (st1 & out & p & blk & Hout & Hd1 & Hck & Hb & Hp & _).
  split; [|split; [|split]].
  - destruct (eltwise_out st1 input out d p blk (λ e, sdiv x e) Hd1 Hck Hb Hp)
      as (st2 & Hrun & Hres).
    exists st2, out. split; [|done].
    unfold Div_scalar_tensor, Div_scalar_tensor_out. rewrite Hout. simpl.
    by rewrite Hrun.
  - destruct (eltwise_out st1 input out d p blk (λ e, sdiv e x) Hd1 Hck Hb Hp)
      as (st2 & Hrun & Hres).
    exists st2, out. split; [|done].
    unfold operator_div, Div_tensor_scalar_out. rewrite Hout. simpl.
    by rewrite Hrun.
  - intros out' p' blk' Hb' Hp' Hck'. split.
    + apply (eltwise_out st input out' d p' blk' (λ e, sdiv x e)); done.
    + apply (eltwise_out st input out' d p' blk' (λ e, sdiv e x)); done.
  - intros e He Hne Heq.
    apply list_elem_of_lookup in He as [i Hi].
    apply (f_equal (λ l, l !! i)) in Heq.
    rewrite !list_lookup_fmap, Hi in Heq. simpl in Heq. congruence.
Qed.

End SharedStorage.

(** ** The properties on the small store *)

Lemma Size_MemSize_witness :
  ∃ w, SizeOf (data_type matrix0) = Ret w
    ∧ 0 < w
    ∧ MemSize store0 matrix0 = Ret 24
    ∧ (24 mod w ≠ 0 → Size store0 matrix0 = Fatal)
    ∧ (24 mod w = 0 → Size store0 matrix0 = Ret (24 / w))
    ∧ (∀ n, Size store0 matrix0 = Ret n → 24 mod w = 0 ∧ 24 = n * w).
Proof.
  apply (Size_MemSize store0 matrix0 block0); [reflexivity|].
  split; [vm_compute; discriminate | reflexivity].
Defined.


Lemma CheckDataTypeAndLang_iff_witness :
  (CheckDataTypeAndLang store0 matrix0 (Tensor_of [4] kInt) = Ret ()
   ↔ data_type matrix0 = data_type (Tensor_of [4] kInt) ∧ lang host = lang host)
  ∧ (¬ (data_type matrix0 = data_type (Tensor_of [4] kInt) ∧ lang host = lang host)
     → CheckDataTypeAndLang store0 matrix0 (Tensor_of [4] kInt) = Fatal).
Proof.
  apply (CheckDataTypeAndLang_iff store0 matrix0 (Tensor_of [4] kInt) host host);
    reflexivity.
Defined.

Lemma T_involutive_witness :
  ∃ st1 t1, T store0 matrix0 = Ret (st1, t1)
    ∧ shape t1 = [3; 2] ∧ transpose t1 = true ∧ blob t1 = blob matrix0
    ∧ ∃ st2 t2, T st1 t1 = Ret (st2, t2) ∧ t2 = matrix0.
Proof.
  destruct (T_involutive store0 matrix0) as [H _].
  destruct (H 2 3 eq_refl)
    as (st1 & t1 & HT & Hb & _ & _ & Htr & Hs & _ & _ & st2 & t2 & HT2 & Ht2 & _).
  exists st1, t1. repeat (split; [done|]). by exists st2, t2.
Defined.

Lemma copy_shares_storage_witness :
  (∃ st1 b, Tensor_copy store0 matrix0 = (st1, b)
     ∧ blob b = blob matrix0 ∧ device b = device matrix0
     ∧ ∃ st2, mutate st1 b (λ d, <[0%nat := 9]> d) = Ret st2
         ∧ data st2 matrix0 = Ret [9; 3; 2; 1; 4; 12])
  ∧ (∃ st1 b, Tensor_assign store0 matrix0 matrix0 = (st1, b)
       ∧ blob b = blob matrix0 ∧ device b = device matrix0
       ∧ data st1 matrix0 = Ret [6; 3; 2; 1; 4; 12]
       ∧ ∃ st2, mutate st1 b (λ d, <[0%nat := 9]> d) = Ret st2
           ∧ data st2 matrix0 = Ret [9; 3; 2; 1; 4; 12]).
Proof.
  assert (data store0 matrix0 = Ret [6; 3; 2; 1; 4; 12]) as Hd0 by reflexivity.
  destruct (copy_shares_storage store0 matrix0) as [Hcopy Hassign].
  split.
  - destruct Hcopy as (st1 & b & Hc & Hb & Hdev & _ & _ & _ & Hobs & Hgo).
    destruct (Hgo _ (λ d, <[0%nat := 9]> d) Hd0) as [st2 Hm].
    destruct (Hobs _ _ Hm) as (d & Hd & Ha & _).
    rewrite Hd0 in Hd. injection Hd as <-.
    exists st1, b. split; [done|]. split; [done|]. split; [done|].
    by exists st2.
  - destruct (Hassign matrix0)
      as (st1 & b & Hc & Hb & Hdev & _ & Hsame & _ & Hobs & Hgo).
    destruct (Hgo _ (λ d, <[0%nat := 9]> d) Hd0) as [st2 Hm].
    destruct (Hobs _ _ Hm) as (d & Hd & Ha & _).
    rewrite Hd0 in Hd. injection Hd as <-.
    exists st1, b. split; [done|]. split; [done|]. split; [done|].
    split; [by rewrite Hsame|]. by exists st2.
Defined.

Lemma Div_scalar_forms_witness :
  (∃ st1 out, Div_scalar_tensor Z.quot store0 12 matrix0 = Ret (st1, out)
     ∧ data st1 out = Ret [2; 4; 6; 12; 3; 1])
  ∧ (∃ st1 out, operator_div Z.quot store0 matrix0 12 = Ret (st1, out)
       ∧ data st1 out = Ret [0; 0; 0; 0; 0; 1]).
Proof.
  destruct (Div_scalar_forms Z.quot store0 matrix0 12 [6; 3; 2; 1; 4; 12] host)
    as (H1 & H2 & _); [reflexivity | reflexivity |].
  split; [exact H1 | exact H2].
Defined.

(** * Further properties of the inline functions *)

(** ** [Product] *)

Lemma Product_value (fuel : nat) (s : Shape) (start len : Z) :
  Shape_size s < UINT_MOD →
  (length s ≤ fuel)%nat →
  (if len =? 0 then Shape_size s else len) <= Shape_size s →
  Product fuel s start len =
  Some (Ret (list_prod (positions s (to_unsigned_int start)
                          (if len =? 0 then Shape_size s else len))
             mod SIZE_MOD)).
Proof.
  intros Hsz Hfuel He. rewrite Product_unfold.
  set (e := if len =? 0 then Shape_size s else len) in *.
  destruct (Z.leb_spec e (Shape_size s)) as [_|?]; [|lia].
  pose proof (to_unsigned_int_range start) as Hs.
  set (i := to_unsigned_int start) in *.
  destruct (Z.le_gt_cases e i) as [Hge|Hlt].
  - rewrite Product_loop_exit by done. by rewrite positions_empty by done.
  - rewrite (Product_loop_run (Z.to_nat (e - i)));
      [|lia|lia|done|done|unfold Shape_size in He; lia].
    rewrite wrapped_prod_mod by (unfold SIZE_MOD; lia).
    by rewrite Z.mul_1_l.
Qed.

Lemma positions_all (s : Shape) : positions s 0 (Shape_size s) = s.
Proof.
  unfold positions, Shape_size. rewrite Z.sub_0_r, Nat2Z.id.
  change (Z.to_nat 0) with O. rewrite drop_0. apply firstn_all.
Qed.

Lemma positions_prefix (s1 s2 : Shape) :
  positions (s1 ++ s2) 0 (Shape_size s1) = s1.
Proof.
  unfold positions, Shape_size. rewrite Z.sub_0_r, Nat2Z.id.
  change (Z.to_nat 0) with O. rewrite drop_0. apply take_app_length.
Qed.

Lemma positions_suffix (s1 s2 : Shape) :
  positions (s1 ++ s2) (Shape_size s1) (Shape_size (s1 ++ s2)) = s2.
Proof.
  unfold positions, Shape_size. rewrite length_app, Nat2Z.id.
  rewrite drop_app_length.
  replace (Z.to_nat (Z.of_nat (length s1 + length s2) - Z.of_nat (length s1)))
    with (length s2) by lia.
  by rewrite firstn_all.
Qed.

Lemma list_prod_app (l1 l2 : list Z) :
  list_prod (l1 ++ l2) = list_prod l1 * list_prod l2.
Proof.
  induction l1 as [|d l1 IH]; simpl.
  - by destruct (list_prod l2).
  - unfold list_prod in *. simpl. rewrite IH. lia.
Qed.

Lemma list_prod_perm (l1 l2 : list Z) : l1 ≡ₚ l2 → list_prod l1 = list_prod l2.
Proof.
  induction 1 as [|x l l' _ IH|x y l|l l' l'' _ IH1 _ IH2]; unfold list_prod in *;
    simpl; (done || lia || congruence).
Qed.

Lemma list_prod_zero (l : list Z) : 0 ∈ l → list_prod l = 0.
Proof.
  induction l as [|d l IH]; [by intros H; inversion H|].
  intros [<-|Hin]%elem_of_cons; unfold list_prod in *; simpl; [done|].
  rewrite IH by done. lia.
Qed.

Lemma list_prod_nonneg (l : list Z) : Forall (λ d, 0 <= d) l → 0 <= list_prod l.
Proof.
  induction 1 as [|d l Hd _ IH]; unfold list_prod in *; simpl; [lia|].
  by apply Z.mul_nonneg_nonneg.
Qed.

Lemma positions_lookup (s : Shape) (from to j d : Z) :
  0 <= from → from <= j < to → s !! Z.to_nat j = Some d → d ∈ positions s from to.
Proof.
  intros Hfrom Hj Hd. unfold positions. apply list_elem_of_lookup.
  exists (Z.to_nat (j - from)).
  rewrite lookup_take_lt by lia. rewrite lookup_drop. rewrite <- Hd.
  f_equal. lia.
Qed.

(** X1.  With its default arguments [Product] is the element count of a
    shape: the product of all dimensions modulo 2^64, and the exact product
    whenever that product fits a [size_t]. *)
Theorem Product_element_count (fuel : nat) (s : Shape) :
  Shape_size s < UINT_MOD →
  (length s ≤ fuel)%nat →
  Product_default fuel s = Some (Ret (list_prod s mod SIZE_MOD))
  ∧ (Forall (λ d, 0 <= d) s → list_prod s < SIZE_MOD →
     Product_default fuel s = Some (Ret (list_prod s))).
Proof.
  intros Hsz Hfuel.
  assert (Product_default fuel s = Some (Ret (list_prod s mod SIZE_MOD))) as Hall.
  { unfold Product_default. rewrite Product_value by (simpl; lia). simpl.
    by rewrite positions_all. }
  split; [done|]. intros Hpos Hfit. rewrite Hall.
  rewrite Z.mod_small; [done|]. split; [by apply list_prod_nonneg | done].
Qed.

Lemma Product_element_count_witness :
  Product_default 3 [2; 3; 4] = Some (Ret 24).
Proof.
  destruct (Product_element_count 3 [2; 3; 4]) as [_ H];
    [reflexivity | simpl; lia |].
  apply H; [repeat constructor; lia | reflexivity].
Defined.

(** X2.  A shape cut in two at a position [k > 0]: [Product (s, 0, k)] is the
    element count of the part before [k], [Product (s, k)] that of the part
    from [k] on, and the two multiply (as [size_t]) to [Product (s)]. *)
Theorem Product_split (fuel : nat) (s1 s2 : Shape) :
  s1 ≠ [] →
  Shape_size (s1 ++ s2) < 2 ^ 31 →
  (length (s1 ++ s2) ≤ fuel)%nat →
  ∃ rows cols,
    Product fuel (s1 ++ s2) 0 (Shape_size s1) = Some (Ret rows)
    ∧ Product fuel (s1 ++ s2) (Shape_size s1) 0 = Some (Ret cols)
    ∧ rows = list_prod s1 mod SIZE_MOD
    ∧ cols = list_prod s2 mod SIZE_MOD
    ∧ Product_default fuel (s1 ++ s2) = Some (Ret (to_size_t (rows * cols))).
Proof.
  intros Hne Hsz Hfuel.
  assert (0 < Shape_size s1 <= Shape_size (s1 ++ s2)) as Hk.
  { unfold Shape_size. rewrite length_app. destruct s1; [done | simpl; lia]. }
  assert (Shape_size (s1 ++ s2) < UINT_MOD) as Hsz' by (unfold UINT_MOD; lia).
  eexists _, _. split; [|split; [|split; [reflexivity|split; [reflexivity|]]]].
  - rewrite Product_value;
      [|done|done|destruct (Z.eqb_spec (Shape_size s1) 0); lia].
    destruct (Z.eqb_spec (Shape_size s1) 0); [lia|].
    change (to_unsigned_int 0) with 0. by rewrite positions_prefix.
  - rewrite Product_value by (done || (simpl; lia)). simpl.
    rewrite to_unsigned_int_small by (unfold UINT_MOD; lia).
    by rewrite positions_suffix.
  - unfold Product_default. rewrite Product_value by (simpl; lia). simpl.
    rewrite positions_all, list_prod_app. unfold to_size_t.
    by rewrite <- Z.mul_mod by (unfold SIZE_MOD; lia).
Qed.

Lemma Product_split_witness :
  ∃ rows cols,
    Product 3 [2; 3; 4] 0 1 = Some (Ret rows)
    ∧ Product 3 [2; 3; 4] 1 0 = Some (Ret cols)
    ∧ rows = 2 ∧ cols = 12
    ∧ Product_default 3 [2; 3; 4] = Some (Ret (to_size_t (rows * cols))).
Proof.
  apply (Product_split 3 [2] [3; 4]); [discriminate | reflexivity | simpl; lia].
Defined.

(** X3.  A dimension of size 0 inside the range makes [Product] return
    0, wherever it stands. *)
Theorem Product_zero_dimension (fuel : nat) (s : Shape) (start len j : Z) :
  Shape_size s < UINT_MOD →
  (length s ≤ fuel)%nat →
  (if len =? 0 then Shape_size s else len) <= Shape_size s →
  to_unsigned_int start <= j < (if len =? 0 then Shape_size s else len) →
  s !! Z.to_nat j = Some 0 →
  Product fuel s start len = Some (Ret 0).
Proof.
  intros Hsz Hfuel He Hj Hzero. rewrite Product_value by done.
  rewrite (list_prod_zero (positions _ _ _)); [done|].
  apply (positions_lookup s _ _ j); [apply to_unsigned_int_range | done | done].
Qed.

Lemma Product_zero_dimension_witness : Product 3 [5; 0; 7] 0 0 = Some (Ret 0).
Proof.
  apply (Product_zero_dimension 3 [5; 0; 7] 0 0 1);
    [reflexivity | simpl; lia | simpl; unfold Shape_size; simpl; lia
    | vm_compute; split; [discriminate | reflexivity] | reflexivity].
Defined.

(** X4.  The element count does not depend on the order of the
    dimensions: shapes that are permutations of one another (a matrix shape
    and its transpose, say) have the same [Product]. *)
Theorem Product_permutation (fuel : nat) (s s' : Shape) :
  s ≡ₚ s' →
  Shape_size s < UINT_MOD →
  (length s ≤ fuel)%nat →
  Product_default fuel s = Product_default fuel s'
  ∧ ∃ n, Product_default fuel s = Some (Ret n).
Proof.
  intros Hperm Hsz Hfuel.
  pose proof (Permutation_length Hperm) as Hlen.
  unfold Product_default.
  rewrite (Product_value fuel s) by (simpl; lia).
  rewrite (Product_value fuel s') by (unfold Shape_size in *; simpl; lia).
  simpl. rewrite !positions_all. rewrite (list_prod_perm s s' Hperm).
  split; [done | by eexists].
Qed.

Lemma Product_permutation_witness :
  Product_default 2 [3; 4] = Product_default 2 [4; 3]
  ∧ ∃ n, Product_default 2 [3; 4] = Some (Ret n).
Proof.
  apply (Product_permutation 2 [3; 4] [4; 3]);
    [apply perm_swap | reflexivity | simpl; lia].
Defined.

(** X5.  A negative [start] is not rejected: converted to the unsigned
    loop counter it lies past the end of every range (on a shape of at most
    2^31 dimensions), so the call returns 1 without reading the shape. *)
Theorem Product_negative_start (fuel : nat) (s : Shape) (start len : Z) :
  is_int start → start < 0 →
  Shape_size s <= 2 ^ 31 →
  (if len =? 0 then Shape_size s else len) <= Shape_size s →
  Product fuel s start len = Some (Ret 1)
  ∧ Product_reads fuel (to_unsigned_int start)
      (if len =? 0 then Shape_size s else len) = [].
Proof.
  intros [Hlo _] Hneg Hsz He.
  assert (to_unsigned_int start = start + UINT_MOD) as Hwrap.
  { unfold to_unsigned_int, UINT_MOD in *.
    symmetry. apply (Z.mod_unique_pos _ _ (-1)); lia. }
  assert ((if len =? 0 then Shape_size s else len) <= to_unsigned_int start) as Hpast.
  { rewrite Hwrap. unfold UINT_MOD. lia. }
  split.
  - rewrite Product_unfold.
    destruct (Z.leb_spec (if len =? 0 then Shape_size s else len) (Shape_size s));
      [|lia].
    by apply Product_loop_exit.
  - destruct fuel; simpl;
      destruct (Z.ltb_spec (to_unsigned_int start)
                  (if len =? 0 then Shape_size s else len)); (lia || done).
Qed.

Lemma Product_negative_start_witness : Product 0 [2; 3; 4] (-2) 0 = Some (Ret 1).
Proof.
  apply (Product_negative_start 0 [2; 3; 4] (-2) 0);
    [unfold is_int; lia | lia | vm_compute; discriminate
    | vm_compute; discriminate].
Defined.

Lemma Product_loop_counter_wraps (fuel : nat) :
  ∀ (s : Shape) (i len v : Z),
    0 <= i < UINT_MOD → UINT_MOD <= len → len <= Shape_size s →
    Product_loop fuel s i len v = None.
Proof.
  induction fuel as [|fuel IH]; intros s i len v Hi Hlen Hsz.
  - simpl. destruct (Z.ltb_spec i len); [done | lia].
  - destruct (array_get_in_bounds s i) as (d & _ & Hget);
      [unfold Shape_size in Hsz; lia|].
    rewrite (Product_loop_step _ _ _ _ _ d) by (lia || done).
    apply IH; [apply to_unsigned_int_range | done | done].
Qed.

(** X6.  The loop counter of [Product] is an [unsigned int] and its bound
    a [size_t]: when the end of the range is 2^32 or more (on a shape that
    large), the counter wraps around before it reaches the bound, and the
    call never returns, however many iterations it is given. *)
Theorem Product_counter_wraps (fuel : nat) (s : Shape) (start len : Z) :
  UINT_MOD <= (if len =? 0 then Shape_size s else len) →
  (if len =? 0 then Shape_size s else len) <= Shape_size s →
  Product fuel s start len = None.
Proof.
  intros Hbig He. rewrite Product_unfold.
  destruct (Z.leb_spec (if len =? 0 then Shape_size s else len) (Shape_size s));
    [|lia].
  apply Product_loop_counter_wraps; [apply to_unsigned_int_range | done | done].
Qed.

Lemma Product_counter_wraps_witness :
  Product 1000 (replicate (Z.to_nat UINT_MOD) 1) 0 UINT_MOD = None.
Proof.
  assert (Shape_size (replicate (Z.to_nat UINT_MOD) 1) = UINT_MOD) as Hsz.
  { unfold Shape_size. rewrite length_replicate. apply Z2Nat.id. discriminate. }
  apply (Product_counter_wraps 1000 (replicate (Z.to_nat UINT_MOD) 1) 0 UINT_MOD).
  - change (UINT_MOD =? 0) with false. cbv iota. apply Z.le_refl.
  - change (UINT_MOD =? 0) with false. cbv iota. rewrite Hsz. apply Z.le_refl.
Defined.

(** ** [SizeOf], [shape (idx)] and [TypeCast] *)

Lemma SizeOf_negative (t : DataType) : t < 0 → SizeOf t = Undefined.
Proof.
  intros Hneg. unfold SizeOf, CHECK_GT.
  rewrite CHECK_true by (apply Z.gtb_lt; unfold kNumDataType; lia). simpl.
  unfold array_get. by destruct (Z.ltb_spec t 0); [|lia].
Qed.

Lemma SizeOf_returns (t : DataType) (w : Z) :
  SizeOf t = Ret w →
  0 <= t < kNumDataType ∧ (w = 1 ∨ w = 2 ∨ w = 4 ∨ w = 8).
Proof.
  unfold SizeOf, CHECK_GT, CHECK.
  destruct (Z.gtb_spec kNumDataType t) as [Hlt|]; [|done].
  simpl. unfold array_get. destruct (Z.ltb_spec t 0) as [|Hge]; [done|].
  unfold kNumDataType in *.
  assert (t = 0 ∨ t = 1 ∨ t = 2 ∨ t = 3 ∨ t = 4) as Hcases by lia.
  destruct Hcases as [->|[->|[->|[->| ->]]]]; simpl; intros [= <-];
    (split; [lia|]); vm_compute; tauto.
Qed.

(** X7.  [SizeOf] guards the upper end of the table only: a negative
    [DataType] value passes [CHECK_GT] and indexes in front of the table.
    When [SizeOf] returns, its argument is an enumerator and the width is 1,
    2, 4 or 8. *)
Theorem SizeOf_guard (t : DataType) :
  (t < 0 → SizeOf t = Undefined)
  ∧ (∀ w, SizeOf t = Ret w →
       0 <= t < kNumDataType ∧ (w = 1 ∨ w = 2 ∨ w = 4 ∨ w = 8)).
Proof.
  split.
  - intros Hneg. unfold SizeOf, CHECK_GT.
    rewrite CHECK_true by (apply Z.gtb_lt; unfold kNumDataType; lia). simpl.
    unfold array_get. by destruct (Z.ltb_spec t 0); [|lia].
  - intros w Hw.
    destruct (Z.lt_ge_cases t 0) as [Hneg|Hnn];
      [by rewrite SizeOf_negative in Hw|].
    destruct (Z.lt_ge_cases t kNumDataType) as [Hlt|Hge];
      [|by rewrite SizeOf_out_of_range in Hw].
    split; [done|].
    destruct (SizeOf_enumerator t) as (w' & Htab & Hw'); [done|].
    rewrite Hw in Hw'. injection Hw' as <-.
    unfold kNumDataType in Hlt.
    assert (t = 0 ∨ t = 1 ∨ t = 2 ∨ t = 3 ∨ t = 4) as Hcases by lia.
    destruct Hcases as [->|[->|[->|[->| ->]]]]; vm_compute in Htab;
      injection Htab as <-; tauto.
Qed.

(** X8.  [shape (idx)] has no negative indexing: a negative [int] passed
    as [idx] arrives as a [size_t] of at least 2^64 - 2^31, which fails the
    check on every tensor. *)
Theorem shape_at_negative (t : Tensor) (idx : Z) :
  is_int idx → idx < 0 →
  nDim t < 2 ^ 63 →
  shape_at t (to_size_t idx) = Fatal.
Proof.
  intros [Hlo _] Hneg Hdim.
  assert (to_size_t idx = idx + SIZE_MOD) as ->.
  { unfold to_size_t, SIZE_MOD in *.
    symmetry. apply (Z.mod_unique_pos _ _ (-1)); lia. }
  unfold shape_at, CHECK_LT, nDim, SIZE_MOD in *.
  rewrite CHECK_false; [done|]. apply Z.ltb_ge. lia.
Qed.

Lemma shape_at_negative_witness :
  shape_at (Tensor_of [2; 3] kFloat32) (to_size_t (-1)) = Fatal.
Proof.
  apply (shape_at_negative (Tensor_of [2; 3] kFloat32) (-1));
    [unfold is_int; lia | lia | reflexivity].
Defined.

(** The conversion of [Product]'s [start] to its loop counter is the
    cast from [int] to [unsigned int]. *)
Lemma TypeCast_unsigned_int (x : Z) :
  TypeCast t_int t_unsigned_int x = to_unsigned_int x.
Proof. reflexivity. Qed.

(** X9.  [TypeCast] to a type that has the value keeps it, and a cast to
    a type at least as wide followed by the cast back is the identity, also
    between signed and unsigned ([int] to [unsigned int] or [size_t] and
    back). *)
Theorem TypeCast_round_trip (from to : IntType) (x : Z) :
  in_range from x →
  in_range to (TypeCast from to x)
  ∧ (in_range to x → TypeCast from to x = x)
  ∧ (bits from <= bits to → TypeCast to from (TypeCast from to x) = x).
Proof.
  intros Hx. split; [|split].
  - destruct from, to; cast_cases.
  - intros Hto. destruct from, to; cast_cases.
  - intros Hbits. destruct from, to; try (simpl in Hbits; lia); cast_cases.
Qed.

Lemma TypeCast_round_trip_witness :
  TypeCast t_int t_size_t (-1) = 18446744073709551615
  ∧ TypeCast t_size_t t_int (TypeCast t_int t_size_t (-1)) = -1.
Proof.
  destruct (TypeCast_round_trip t_int t_size_t (-1)) as (_ & _ & H);
    [unfold in_range; simpl; lia|].
  split; [reflexivity | apply H; simpl; lia].
Defined.

(** ** [Size] and [CheckDataTypeAndLang] *)

Section Checks.
Context {SType : Type}.
Implicit Types (st : @Store SType) (b : @Blob SType).

Lemma deref_cases {V : Type} (m : gmap N V) (p : pointer) :
  (∃ v, deref m p = Ret v) ∨ deref m p = Undefined.
Proof.
  unfold deref. destruct p as [a|]; [|by right].
  destruct (m !! a); [left; by eexists | by right].
Qed.

(** X10.  [Size ()] returns [n] exactly when the storage is bound, the data
    type is an enumerator and the byte size of the block is [n] times the
    width of that type; it fails its check exactly when the storage is bound
    and the data type is [kNumDataType] or above, or an enumerator whose
    width does not divide the byte size. *)
Theorem Size_outcomes st (t : Tensor) :
  (∀ n, Size st t = Ret n ↔
        ∃ b w, deref (blobs st) (blob t) = Ret b
             ∧ 0 <= data_type t < kNumDataType
             ∧ kDataWidth !! Z.to_nat (data_type t) = Some w
             ∧ blob_size b = n * w)
  ∧ (Size st t = Fatal ↔
     ∃ b, deref (blobs st) (blob t) = Ret b
        ∧ (kNumDataType <= data_type t
           ∨ ∃ w, 0 <= data_type t < kNumDataType
                ∧ kDataWidth !! Z.to_nat (data_type t) = Some w
                ∧ blob_size b mod w ≠ 0)).
Proof.
  unfold Size, blob, data_type.
  destruct (deref_cases (blobs st) (blob_ t)) as [[b Hb]| Hb]; rewrite Hb; simpl.
  2:{ split; [intros n|]; (split; [done|]).
      - by intros (b & w & ? & _).
      - by intros (b & ? & _). }
  destruct (Z.lt_ge_cases (data_type_ t) 0) as [Hneg|Hnn].
  { rewrite (SizeOf_negative _ Hneg). simpl.
    split; [intros n|]; (split; [done|]).
    - intros (b' & w & _ & ? & _). lia.
    - intros (b' & _ & [?|(w & ? & _)]); unfold kNumDataType in *; lia. }
  destruct (Z.lt_ge_cases (data_type_ t) kNumDataType) as [Hlt|Hge].
  2:{ rewrite SizeOf_out_of_range by done. simpl.
      split; [intros n; split; [done|]|split].
      - intros (b' & w & _ & ? & _). lia.
      - intros _. exists b. split; [done | by left].
      - done. }
  destruct (SizeOf_enumerator (data_type_ t)) as (w & Hw & HS); [lia|].
  pose proof (SizeOf_positive _ _ HS) as Hpos.
  rewrite HS. simpl. unfold CHECK_EQ, CHECK.
  destruct (Z.eqb_spec (blob_size b mod w) 0) as [Hdiv|Hndiv]; simpl.
  - split; [intros n; split|split].
    + intros [= <-]. exists b, w. repeat (split; [done || lia|]).
      rewrite (Z.div_mod (blob_size b) w) at 1 by lia. lia.
    + intros (b' & w' & [= <-] & _ & Hw' & Hsize).
      rewrite Hw in Hw'. injection Hw' as <-.
      f_equal. rewrite Hsize. by rewrite Z.div_mul by lia.
    + done.
    + intros (b' & [= <-] & [?|(w' & _ & Hw' & Hnd)]); [lia|].
      rewrite Hw in Hw'. by injection Hw' as <-.
  - split; [intros n; split|split].
    + done.
    + intros (b' & w' & [= <-] & _ & Hw' & Hsize).
      rewrite Hw in Hw'. injection Hw' as <-.
      destruct Hndiv. rewrite Hsize. by apply Z.mod_mul; lia.
    + intros _. exists b. split; [done|]. right. exists w. by repeat split; try lia.
    + done.
Qed.

(** X11.  A block of [n] elements of the tensor's type: on a block whose
    byte size is the [size_t] product [n * SizeOf (data_type)], [Size ()]
    passes its check, also when that product wrapped around (every width
    divides 2^64), and returns [n] whenever the product did not wrap. *)
Theorem Size_of_allocation st (t : Tensor) b (w n : Z) :
  deref (blobs st) (blob t) = Ret b →
  SizeOf (data_type t) = Ret w →
  0 <= n →
  blob_size b = to_size_t (n * w) →
  Size st t = Ret (n mod (SIZE_MOD / w))
  ∧ (n * w < SIZE_MOD → Size st t = Ret n).
Proof.
  intros Hb HS Hn Hsize.
  destruct (SizeOf_returns _ w HS) as [_ Hwidth].
  assert (0 < w ∧ SIZE_MOD = (SIZE_MOD / w) * w ∧ 0 < SIZE_MOD / w) as (Hpos & Hq & Hqpos).
  { destruct Hwidth as [->|[->|[->| ->]]]; vm_compute; done. }
  assert (blob_size b = (n mod (SIZE_MOD / w)) * w) as Hbytes.
  { rewrite Hsize. unfold to_size_t. rewrite Hq at 1.
    rewrite Z.mul_mod_distr_r by lia. done. }
  assert (Size st t = Ret (n mod (SIZE_MOD / w))) as Hres.
  { unfold Size, blob, data_type in *. rewrite Hb, HS. simpl.
    unfold CHECK_EQ. rewrite Hbytes, Z.mod_mul by lia. simpl.
    by rewrite Z.div_mul by lia. }
  split; [done|]. intros Hfit. rewrite Hres. f_equal.
  apply Z.mod_small. split; [done|]. nia.
Qed.

(** X12.  [CheckDataTypeAndLang] does not depend on the order of its
    arguments, passes a tensor against itself when its device is live, and
    is transitive: passing is an equivalence between tensors.  Shapes and
    storage play no part in it. *)
Theorem CheckDataTypeAndLang_equivalence st (a b c : Tensor) :
  CheckDataTypeAndLang st a b = CheckDataTypeAndLang st b a
  ∧ ((∃ d, deref (devices st) (device a) = Ret d) →
     CheckDataTypeAndLang st a a = Ret ())
  ∧ (CheckDataTypeAndLang st a b = Ret () →
     CheckDataTypeAndLang st b c = Ret () →
     CheckDataTypeAndLang st a c = Ret ())
  ∧ (∀ a' : Tensor, data_type a' = data_type a → device a' = device a →
       CheckDataTypeAndLang st a' b = CheckDataTypeAndLang st a b).
Proof.
  unfold CheckDataTypeAndLang, CHECK_EQ, CHECK.
  split; [|split; [|split]].
  - rewrite (Z.eqb_sym (data_type b)).
    destruct (data_type a =? data_type b); [|done]. simpl.
    destruct (deref_cases (devices st) (device a)) as [[da ->]| ->];
      destruct (deref_cases (devices st) (device b)) as [[db ->]| ->];
      simpl; try done.
    by rewrite Z.eqb_sym.
  - intros [d ->]. by rewrite !Z.eqb_refl; simpl; rewrite Z.eqb_refl.
  - destruct (Z.eqb_spec (data_type a) (data_type b)) as [Hab|]; [|done].
    destruct (Z.eqb_spec (data_type b) (data_type c)) as [Hbc|];
      [|simpl; by destruct (deref (devices st) (device a))].
    simpl.
    destruct (deref_cases (devices st) (device a)) as [[da ->]| ->]; [|done].
    destruct (deref_cases (devices st) (device b)) as [[db ->]| ->]; [|done].
    destruct (deref_cases (devices st) (device c)) as [[dc ->]| ->]; [|done].
    simpl.
    destruct (Z.eqb_spec (lang da) (lang db)) as [Hl1|]; [|done].
    destruct (Z.eqb_spec (lang db) (lang dc)) as [Hl2|]; [|done].
    intros _ _. rewrite Hab, Hbc, Z.eqb_refl. simpl.
    by rewrite Hl1, Hl2, Z.eqb_refl.
  - by intros a' -> ->.
Qed.

(** X13.  The data types are compared first: tensors of different data
    types fail the check whatever their devices, a null device included.
    With equal data types a device pointer that is null or dangling is
    dereferenced, which is undefined. *)
Theorem CheckDataTypeAndLang_order st (a b : Tensor) :
  (data_type a ≠ data_type b → CheckDataTypeAndLang st a b = Fatal)
  ∧ (data_type a = data_type b →
     deref (devices st) (device a) = Undefined
     ∨ deref (devices st) (device b) = Undefined →
     CheckDataTypeAndLang st a b = Undefined).
Proof.
  unfold CheckDataTypeAndLang, CHECK_EQ, CHECK. split.
  - intros Hne. by destruct (Z.eqb_spec (data_type a) (data_type b)).
  - intros ->. rewrite Z.eqb_refl. simpl. intros [-> | Hb]; [done|].
    rewrite Hb.
    by destruct (deref_cases (devices st) (device a)) as [[da ->]| ->].
Qed.

End Checks.

Lemma Size_of_allocation_witness : Size store0 matrix0 = Ret 6.
Proof.
  destruct (Size_of_allocation store0 matrix0 block0 4 6) as [_ H];
    [reflexivity | reflexivity | lia | reflexivity |].
  apply H. reflexivity.
Defined.

Section Views.
Context {SType : Type}.
Implicit Types (st : @Store SType).

(** X14.  [MemSize ()] and [data ()] belong to the block, not to the
    handle: two tensors on the same block report the same byte size and the
    same buffer whatever their shapes and data types, and their element
    counts differ by the ratio of the widths only. *)
Theorem MemSize_shared st (t u : Tensor) :
  blob t = blob u →
  MemSize st t = MemSize st u
  ∧ data st t = data st u
  ∧ (∀ n m w1 w2,
       Size st t = Ret n → Size st u = Ret m →
       SizeOf (data_type t) = Ret w1 → SizeOf (data_type u) = Ret w2 →
       n * w1 = m * w2).
Proof.
  unfold blob. intros Hblob. unfold MemSize, data, Size, blob, data_type.
  rewrite Hblob. split; [done|]. split; [done|].
  intros n m w1 w2.
  destruct (deref_cases (blobs st) (blob_ u)) as [[b ->]| ->]; [|done]. simpl.
  intros Hn Hm Hw1 Hw2. rewrite Hw1 in Hn. rewrite Hw2 in Hm. simpl in *.
  pose proof (SizeOf_positive _ _ Hw1). pose proof (SizeOf_positive _ _ Hw2).
  unfold CHECK_EQ, CHECK in *.
  destruct (Z.eqb_spec (blob_size b mod w1) 0) as [H1|]; [|done].
  destruct (Z.eqb_spec (blob_size b mod w2) 0) as [H2|]; [|done].
  simpl in *. injection Hn as <-. injection Hm as <-.
  pose proof (Z.div_mod (blob_size b) w1). pose proof (Z.div_mod (blob_size b) w2).
  lia.
Qed.

End Views.

Lemma MemSize_shared_witness :
  MemSize store0 matrix0 =
  MemSize store0 {| transpose_ := true; data_type_ := kDouble;
                    device_ := Some defaultDevice; blob_ := Some 7%N;
                    shape_ := [3] |}.
Proof.
  apply (MemSize_shared store0 matrix0
           {| transpose_ := true; data_type_ := kDouble;
              device_ := Some defaultDevice; blob_ := Some 7%N;
              shape_ := [3] |}).
  reflexivity.
Defined.
